(** * Query plans: the data model of [question_answer_subquery.py]

    The Python module declares three pydantic models ([QueryAnswer],
    [Query], [QueryPlan]) and one string-valued enumeration ([QueryType]).
    This development embeds them, the way pydantic builds and serialises
    them, and the graph validator and topological ordering that the
    specification asks for on top of them. *)

From Stdlib Require Import ZArith List String Bool Lia Permutation Relations.
Import ListNotations.
Local Open Scope string_scope.
Local Open Scope list_scope.
Local Open Scope Z_scope.

(** ** The enumeration [QueryType(str, enum.Enum)] *)

Inductive QueryType : Type :=
| SINGLE_QUESTION
| MERGE_MULTIPLE_RESPONSES.

(** The member names, as written in the class body. *)
Definition QueryType_name (k : QueryType) : string :=
  match k with
  | SINGLE_QUESTION => "SINGLE_QUESTION"
  | MERGE_MULTIPLE_RESPONSES => "MERGE_MULTIPLE_RESPONSES"
  end.

(** The member values: the enumeration derives from [str], so a member
    is a string and compares equal to its value. *)
Definition QueryType_value (k : QueryType) : string :=
  match k with
  | SINGLE_QUESTION => "SINGLE"
  | MERGE_MULTIPLE_RESPONSES => "MERGE_MULTIPLE_RESPONSES"
  end.

(** [list(QueryType)]: the members in definition order. *)
Definition QueryType_members : list QueryType :=
  [SINGLE_QUESTION; MERGE_MULTIPLE_RESPONSES].

(** [QueryType(v)]: look a member up by value; Python raises
    [ValueError] where this returns [None]. *)
Definition QueryType_of_value (v : string) : option QueryType :=
  find (fun k => String.eqb (QueryType_value k) v) QueryType_members.

(** [QueryType[n]]: look a member up by name; Python raises [KeyError]
    where this returns [None]. *)
Definition QueryType_of_name (n : string) : option QueryType :=
  find (fun k => String.eqb (QueryType_name k) n) QueryType_members.

(** ** The models *)

Record QueryAnswer : Type := mkQueryAnswer {
  qa_question : string;
  answer : string
}.

(** Python's [int] is unbounded, hence [Z]. The field names are the
    source's, spelling included. *)
Record Query : Type := mkQuery {
  id : Z;
  question : string;
  dependancies : list Z;
  node_type : QueryType;
  original_question : bool
}.

Record QueryPlan : Type := mkQueryPlan {
  query_graph : list Query
}.

(** ** Construction

    A pydantic model is built from keyword arguments. A field declared
    with [Field(...)] is required; the others carry a default. Each
    argument is taken here at the type its annotation names, except
    [node_type], which arrives as a string and goes through the
    enumeration's member validator. Validation visits the fields in
    declaration order and collects one error per offending field. An
    argument of another type, [None] included, goes through pydantic's
    coercions and type errors; those are outside this embedding, which
    speaks of arguments given at their declared types only. *)

Inductive ErrorKind : Type :=
| MissingError
| EnumMemberError (given : string).

Definition ValidationError : Type := list (string * ErrorKind).

Record QueryKwargs : Type := mkQueryKwargs {
  kw_id : option Z;
  kw_question : option string;
  kw_dependancies : option (list Z);
  kw_node_type : option string;
  kw_original_question : option bool
}.

(** A required field: present, or a [MissingError] under its name. *)
Definition required {A : Type} (name : string) (v : option A)
  : ValidationError + A :=
  match v with
  | Some a => inr a
  | None => inl [(name, MissingError)]
  end.

(** A field with a default. *)
Definition with_default {A : Type} (d : A) (v : option A) : A :=
  match v with
  | Some a => a
  | None => d
  end.

(** The [node_type] field: default [QueryType.SINGLE_QUESTION], else the
    member whose value is the given string. *)
Definition validate_node_type (v : option string) : ValidationError + QueryType :=
  match v with
  | None => inr SINGLE_QUESTION
  | Some s =>
      match QueryType_of_value s with
      | Some k => inr k
      | None => inl [("node_type", EnumMemberError s)]
      end
  end.

Definition errors_of {A : Type} (r : ValidationError + A) : ValidationError :=
  match r with
  | inl e => e
  | inr _ => []
  end.

(** The call [Query] on keyword arguments [kw]. *)
Definition Query_init (kw : QueryKwargs) : ValidationError + Query :=
  let r_id := required "id" (kw_id kw) in
  let r_question := required "question" (kw_question kw) in
  let r_node_type := validate_node_type (kw_node_type kw) in
  match r_id, r_question, r_node_type with
  | inr i, inr q, inr k =>
      inr {| id := i;
             question := q;
             dependancies := with_default [] (kw_dependancies kw);
             node_type := k;
             original_question := with_default false (kw_original_question kw) |}
  | _, _, _ =>
      inl (errors_of r_id ++ errors_of r_question ++ errors_of r_node_type)
  end.

(** [QueryPlan(query_graph=...)]: the one field is required, and its
    elements are [Query] instances already. *)
Definition QueryPlan_init (kw_query_graph : option (list Query))
  : ValidationError + QueryPlan :=
  match required "query_graph" kw_query_graph with
  | inr nodes => inr {| query_graph := nodes |}
  | inl e => inl e
  end.

(** The call [Query(id=i, question=s)]. *)
Definition only_id_and_question (i : Z) (s : string) : QueryKwargs :=
  {| kw_id := Some i;
     kw_question := Some s;
     kw_dependancies := None;
     kw_node_type := None;
     kw_original_question := None |}.

(** ** Serialisation: [.dict()]

    A model serialises to a mapping from field name to value, in
    declaration order, sub-models recursively. An enumeration member is
    kept as it is; being a [str], it is the string of its value. *)

Unset Elimination Schemes.
Inductive value : Type :=
| VInt (z : Z)
| VStr (s : string)
| VBool (b : bool)
| VList (l : list value)
| VDict (d : list (string * value)).
Set Elimination Schemes.

Definition keys (d : list (string * value)) : list string := map fst d.

Fixpoint lookup (k : string) (d : list (string * value)) : option value :=
  match d with
  | [] => None
  | (k', v) :: rest => if String.eqb k k' then Some v else lookup k rest
  end.

Definition Query_dict (q : Query) : list (string * value) :=
  [ ("id", VInt (id q));
    ("question", VStr (question q));
    ("dependancies", VList (map VInt (dependancies q)));
    ("node_type", VStr (QueryType_value (node_type q)));
    ("original_question", VBool (original_question q)) ].

Definition QueryPlan_dict (p : QueryPlan) : list (string * value) :=
  [ ("query_graph", VList (map (fun q => VDict (Query_dict q)) (query_graph p))) ].

(** ** The graph validator and the topological order

    The Python module stops at the data model: it defines neither a
    validator nor an ordering. The specification describes both, and the
    definitions of this section follow its words. *)

(** Modelled from the spec: the error taxonomy of the validator, absent
    from the module. Each error carries the offending ids: the id seen
    twice, the dependency id without a node, the ids of the nodes that
    the ordering left over. *)
Inductive GraphError : Type :=
| DuplicateId (i : Z)
| DanglingDependency (d : Z)
| CyclicDependency (leftover : list Z).

Definition is_DuplicateId (e : GraphError) : bool :=
  match e with DuplicateId _ => true | _ => false end.

Definition is_DanglingDependency (e : GraphError) : bool :=
  match e with DanglingDependency _ => true | _ => false end.

Definition is_CyclicDependency (e : GraphError) : bool :=
  match e with CyclicDependency _ => true | _ => false end.

(** [r] is a failure, with an error of the kind [kind]. *)
Definition fails_with {A : Type} (kind : GraphError -> bool)
  (r : GraphError + A) : Prop :=
  match r with
  | inl e => kind e = true
  | inr _ => False
  end.

Definition ids (nodes : list Query) : list Z := map id nodes.

Definition mem (i : Z) (l : list Z) : bool := existsb (Z.eqb i) l.

(** Modelled from the spec: the uniqueness check of the validator,
    absent from the module. The ids are scanned in graph order against
    the ids seen so far; the first id met a second time is reported. *)
Fixpoint find_duplicate (seen : list Z) (l : list Z) : option Z :=
  match l with
  | [] => None
  | i :: rest => if mem i seen then Some i else find_duplicate (i :: seen) rest
  end.

(** Modelled from the spec: the reference check of the validator, absent
    from the module. The first dependency id, in graph order, that is
    the id of no node. *)
Fixpoint find_dangling (known : list Z) (nodes : list Query) : option Z :=
  match nodes with
  | [] => None
  | q :: rest =>
      match find (fun d => negb (mem d known)) (dependancies q) with
      | Some d => Some d
      | None => find_dangling known rest
      end
  end.

(** A dependency id is resolved once every node that carries it has
    been placed: some placed node has the id, and no node still waiting
    has it. *)
Definition resolved (emitted waiting : list Query) (d : Z) : bool :=
  mem d (ids emitted) && negb (mem d (ids waiting)).

(** A node is ready once all of its dependencies appear earlier in the
    sequence, that is, once each of its dependency ids is resolved. *)
Definition ready (emitted waiting : list Query) (q : Query) : bool :=
  forallb (resolved emitted waiting) (dependancies q).

(** The first ready node of [remaining] in graph order, with the other
    nodes in their order: the stable choice among the ready nodes.
    [waiting] is the list of all the nodes not placed yet. *)
Fixpoint pick_ready (emitted waiting remaining : list Query)
  : option (Query * list Query) :=
  match remaining with
  | [] => None
  | q :: rest =>
      if ready emitted waiting q then Some (q, rest)
      else match pick_ready emitted waiting rest with
           | Some (r, rest') => Some (r, q :: rest')
           | None => None
           end
  end.

(** Modelled from the spec: Kahn's topological sort, absent from the
    module. One node is placed per round; when nodes remain and none is
    ready, they are returned as the leftover of a [CyclicDependency].
    [rounds] bounds the number of rounds. *)
Fixpoint kahn (rounds : nat) (emitted remaining : list Query)
  : GraphError + list Query :=
  match remaining with
  | [] => inr emitted
  | _ :: _ =>
      match rounds with
      | O => inl (CyclicDependency (ids remaining))
      | S rounds' =>
          match pick_ready emitted remaining remaining with
          | Some (q, rest) => kahn rounds' (emitted ++ [q]) rest
          | None => inl (CyclicDependency (ids remaining))
          end
      end
  end.

(** Modelled from the spec: [topologicalOrder(graph)], absent from the
    module. Every round places one node, so as many rounds as there are
    nodes are given. *)
Definition topologicalOrder (g : QueryPlan) : GraphError + list Query :=
  kahn (List.length (query_graph g)) [] (query_graph g).

(** Modelled from the spec: [validate(graph)], absent from the module.
    The three failures are looked for in the order the specification
    lists them; a graph is valid when the topological ordering includes
    every node. *)
Definition validate (g : QueryPlan) : GraphError + unit :=
  match find_duplicate [] (ids (query_graph g)) with
  | Some i => inl (DuplicateId i)
  | None =>
      match find_dangling (ids (query_graph g)) (query_graph g) with
      | Some d => inl (DanglingDependency d)
      | None =>
          match topologicalOrder g with
          | inl e => inl e
          | inr _ => inr tt
          end
      end
  end.

(** *** The operations on a graph object

    A Python caller hands the graph over by reference. An operation is
    therefore a function of the object's state that returns its result
    together with the state it leaves behind. *)

Definition Op (A : Type) : Type := QueryPlan -> A * QueryPlan.

Definition ret {A : Type} (a : A) : Op A := fun g => (a, g).

Definition bind {A B : Type} (m : Op A) (k : A -> Op B) : Op B :=
  fun g => let (a, g') := m g in k a g'.

Definition read : Op QueryPlan := fun g => (g, g).

(** Modelled from the spec: the call of [validate] on a graph object. *)
Definition validate_op : Op (GraphError + unit) :=
  bind read (fun g => ret (validate g)).

(** Modelled from the spec: the call of [topologicalOrder] on a graph
    object. *)
Definition topologicalOrder_op : Op (GraphError + list Query) :=
  bind read (fun g => ret (topologicalOrder g)).

(** ** The properties of a graph the specification speaks of *)

(** All ids are distinct. *)
Definition unique_ids (g : QueryPlan) : Prop := NoDup (ids (query_graph g)).

(** Two nodes, at different places of the graph, share an id. *)
Definition shares_id (g : QueryPlan) : Prop :=
  exists (m n : nat) (a b : Query),
    m <> n /\
    nth_error (query_graph g) m = Some a /\
    nth_error (query_graph g) n = Some b /\
    id a = id b.

(** Some dependency id is the id of no node. *)
Definition dangling (g : QueryPlan) : Prop :=
  exists q d, In q (query_graph g) /\ In d (dependancies q) /\
              ~ In d (ids (query_graph g)).

Definition no_dangling (g : QueryPlan) : Prop :=
  forall q d, In q (query_graph g) -> In d (dependancies q) ->
              In d (ids (query_graph g)).

(** The dependency relation on ids: [i] depends on [j] when a node with
    id [i] lists [j]. *)
Definition depends_on (nodes : list Query) (i j : Z) : Prop :=
  exists q, In q nodes /\ id q = i /\ In j (dependancies q).

(** The relation contains a cycle: some id depends, in one step or
    more, on itself. *)
Definition cyclic (g : QueryPlan) : Prop :=
  exists i, clos_trans Z (depends_on (query_graph g)) i i.

Definition acyclic (g : QueryPlan) : Prop :=
  forall i, ~ clos_trans Z (depends_on (query_graph g)) i i.

(** In [order], every node comes after nodes carrying each of its
    dependency ids. *)
Definition respects_dependencies (order : list Query) : Prop :=
  forall before q after, order = before ++ q :: after ->
    forall d, In d (dependancies q) -> In d (ids before).

(** In [order], every node comes after all the nodes that carry one of
    its dependency ids. *)
Definition all_carriers_before (order : list Query) : Prop :=
  forall before q after, order = before ++ q :: after ->
    forall d, In d (dependancies q) ->
      In d (ids before) /\ ~ In d (ids (q :: after)).

(** *** Example graphs *)

Definition node (i : Z) (deps : list Z) : Query :=
  {| id := i; question := "q"; dependancies := deps;
     node_type := SINGLE_QUESTION; original_question := false |}.

(** The plan printed at the end of the module. *)
Definition example_plan : QueryPlan :=
  {| query_graph := [node 1 []; node 2 []; node 3 [1]; node 4 [2; 3]] |}.

Definition two_cycle : QueryPlan :=
  {| query_graph := [node 1 [2]; node 2 [1]] |}.

Definition dangling_99 : QueryPlan :=
  {| query_graph := [node 1 [99]] |}.

(** * Proofs *)

(** ** Walks in a finite relation

    A relation in which every element of a finite, non-empty carrier has
    a successor in the carrier contains a cycle: a walk longer than the
    carrier visits some element twice. *)

Section Walks.

Variable A : Type.
Hypothesis A_eq_dec : forall x y : A, {x = y} + {x <> y}.
Variable R : A -> A -> Prop.

(** [walk x l]: from [x], each element of [l] is a successor of the
    one before. *)
Fixpoint walk (x : A) (l : list A) : Prop :=
  match l with
  | [] => True
  | y :: l' => R x y /\ walk y l'
  end.

Lemma walk_app x l1 y l2 :
  walk x (l1 ++ y :: l2) -> walk x (l1 ++ [y]) /\ walk y l2.
Proof.
  revert x. induction l1 as [|z l1 IH]; simpl; intros x H.
  - tauto.
  - destruct H as [Hxz Hz]. destruct (IH _ Hz). tauto.
Qed.

Lemma walk_clos_trans l : forall x y,
  walk x (l ++ [y]) -> clos_trans A R x y.
Proof.
  induction l as [|z l IH]; simpl; intros x y H.
  - apply t_step. tauto.
  - destruct H as [Hxz Hz]. apply t_trans with z.
    + now apply t_step.
    + now apply IH.
Qed.

Lemma repeated_split (l : list A) :
  ~ NoDup l -> exists a l1 l2 l3, l = l1 ++ a :: l2 ++ a :: l3.
Proof.
  induction l as [|x l IH]; intros Hdup.
  - exfalso. apply Hdup. constructor.
  - destruct (in_dec A_eq_dec x l) as [Hin|Hnin].
    + destruct (in_split _ _ Hin) as (l2 & l3 & ->).
      now exists x, [], l2, l3.
    + destruct IH as (a & l1 & l2 & l3 & ->).
      * intros Hnd. apply Hdup. now constructor.
      * now exists a, (x :: l1), l2, l3.
Qed.

Variable carrier : list A.
Hypothesis successor :
  forall x, In x carrier -> exists y, In y carrier /\ R x y.

Lemma walk_of_length (n : nat) : forall x, In x carrier ->
  exists l, List.length l = n /\ walk x l /\ incl l carrier.
Proof.
  induction n as [|n IH]; intros x Hx.
  - exists []. repeat split. intros y [].
  - destruct (successor x Hx) as (y & Hy & Hxy).
    destruct (IH y Hy) as (l & Hlen & Hwalk & Hincl).
    exists (y :: l). simpl. repeat split; auto.
    intros z [<-|Hz]; auto.
Qed.

Lemma closed_carrier_cycle x0 :
  In x0 carrier -> exists x, clos_trans A R x x.
Proof.
  intros Hx0.
  destruct (walk_of_length (List.length carrier) x0 Hx0)
    as (l & Hlen & Hwalk & Hincl).
  assert (Hdup : ~ NoDup (x0 :: l)).
  { intros Hnd.
    assert (Hle : (List.length (x0 :: l) <= List.length carrier)%nat).
    { apply NoDup_incl_length; auto.
      intros z [<-|Hz]; auto. }
    simpl in Hle. lia. }
  destruct (repeated_split _ Hdup) as (a & l1 & l2 & l3 & Heq).
  exists a. apply walk_clos_trans with l2.
  destruct l1 as [|z l1]; simpl in Heq; injection Heq as -> ->.
  - now apply walk_app in Hwalk.
  - apply walk_app in Hwalk. destruct Hwalk as [_ Hwalk].
    now apply walk_app in Hwalk.
Qed.

End Walks.

(** ** The checks of the validator *)

Lemma mem_In i l : mem i l = true <-> In i l.
Proof.
  unfold mem. rewrite existsb_exists. split.
  - intros (x & Hx & Heq). apply Z.eqb_eq in Heq. now subst.
  - intros H. exists i. split; auto. apply Z.eqb_refl.
Qed.

Lemma mem_not_In i l : mem i l = false <-> ~ In i l.
Proof.
  rewrite <- mem_In. destruct (mem i l); split; congruence.
Qed.

Lemma find_duplicate_None l : forall seen,
  find_duplicate seen l = None <->
  NoDup l /\ (forall x, In x l -> ~ In x seen).
Proof.
  induction l as [|i l IH]; intros seen; simpl.
  - split; auto. intros _. split; [constructor|tauto].
  - destruct (mem i seen) eqn:Hmem.
    + apply mem_In in Hmem. split; [discriminate|].
      intros [_ H]. exfalso. apply (H i); auto.
    + apply mem_not_In in Hmem. rewrite IH. split.
      * intros [Hnd Hseen]. split.
        -- constructor; auto. intros Hin. apply (Hseen i Hin). now left.
        -- intros x [<-|Hx]; auto. intros Hin. apply (Hseen x Hx). now right.
      * intros [Hnd Hseen]. inversion Hnd; subst. split; auto.
        intros x Hx [<-|Hin]; auto. apply (Hseen x); auto.
Qed.

Lemma find_duplicate_NoDup l : find_duplicate [] l = None <-> NoDup l.
Proof.
  rewrite find_duplicate_None. split; [tauto|]. intros H. split; auto.
Qed.

Lemma find_dangling_None known nodes :
  find_dangling known nodes = None <->
  (forall q d, In q nodes -> In d (dependancies q) -> In d known).
Proof.
  induction nodes as [|q nodes IH]; simpl.
  - split; auto. intros _ q d [].
  - destruct (find _ (dependancies q)) as [d|] eqn:Hfind.
    + apply find_some in Hfind. destruct Hfind as [Hd Hmem].
      apply negb_true_iff in Hmem. apply mem_not_In in Hmem.
      split; [discriminate|]. intros H. exfalso. apply Hmem.
      apply (H q d); auto.
    + rewrite IH. split.
      * intros H q' d [<-|Hq'] Hd; [|eauto].
        pose proof (find_none _ _ Hfind d Hd) as Hmem. simpl in Hmem.
        apply negb_false_iff in Hmem. now apply mem_In.
      * intros H q' d Hq' Hd. apply (H q' d); auto.
Qed.

Lemma find_dangling_Some known nodes d :
  find_dangling known nodes = Some d ->
  exists q, In q nodes /\ In d (dependancies q) /\ ~ In d known.
Proof.
  induction nodes as [|q nodes IH]; simpl; [discriminate|].
  destruct (find _ (dependancies q)) as [d'|] eqn:Hfind.
  - intros [= ->]. apply find_some in Hfind. destruct Hfind as [Hd Hmem].
    apply negb_true_iff in Hmem. apply mem_not_In in Hmem.
    exists q. auto.
  - intros H. destruct (IH H) as (q' & Hq' & Hd). exists q'. auto.
Qed.

Lemma shares_id_not_unique g : shares_id g <-> ~ unique_ids g.
Proof.
  unfold shares_id, unique_ids, ids. split.
  - intros (m & n & a & b & Hmn & Ha & Hb & Hid) Hnd.
    apply Hmn. rewrite NoDup_nth_error in Hnd. apply Hnd.
    + rewrite length_map. apply nth_error_Some. congruence.
    + rewrite !nth_error_map, Ha, Hb. simpl. now rewrite Hid.
  - intros Hdup.
    destruct (repeated_split Z Z.eq_dec _ Hdup) as (i & l1 & l2 & l3 & Heq).
    assert (H1 : nth_error (map id (query_graph g)) (List.length l1) = Some i).
    { rewrite Heq, nth_error_app2, Nat.sub_diag; auto. }
    assert (H2 : nth_error (map id (query_graph g))
                   (List.length l1 + S (List.length l2)) = Some i).
    { rewrite Heq, nth_error_app2 by lia.
      replace (List.length l1 + S (List.length l2) - List.length l1)%nat
        with (S (List.length l2)) by lia.
      simpl. rewrite nth_error_app2, Nat.sub_diag; auto. }
    rewrite nth_error_map in H1, H2.
    destruct (nth_error (query_graph g) (List.length l1)) as [a|] eqn:Ha;
      [|discriminate].
    destruct (nth_error (query_graph g) (List.length l1 + S (List.length l2)))
      as [b|] eqn:Hb; [|discriminate].
    simpl in H1, H2. exists (List.length l1), (List.length l1 + S (List.length l2))%nat, a, b.
    repeat split; auto; try lia. congruence.
Qed.

(** ** Kahn's loop *)

Lemma ready_true emitted waiting q :
  ready emitted waiting q = true <->
  (forall d, In d (dependancies q) ->
     In d (ids emitted) /\ ~ In d (ids waiting)).
Proof.
  unfold ready, resolved. rewrite forallb_forall. split; intros H d Hd.
  - specialize (H d Hd). apply andb_true_iff in H. destruct H as [H1 H2].
    apply negb_true_iff in H2. split; [now apply mem_In|now apply mem_not_In].
  - destruct (H d Hd) as [H1 H2]. apply andb_true_iff. split.
    + now apply mem_In.
    + apply negb_true_iff. now apply mem_not_In.
Qed.

Lemma ready_false emitted waiting q :
  ready emitted waiting q = false ->
  exists d, In d (dependancies q) /\
            (~ In d (ids emitted) \/ In d (ids waiting)).
Proof.
  unfold ready. induction (dependancies q) as [|d l IH]; simpl.
  - discriminate.
  - destruct (resolved emitted waiting d) eqn:Hres; simpl.
    + intros H. destruct (IH H) as (d' & Hd' & Hn). exists d'. auto.
    + intros _. exists d. split; auto. unfold resolved in Hres.
      apply andb_false_iff in Hres. destruct Hres as [Hres|Hres].
      * left. now apply mem_not_In.
      * right. apply negb_false_iff in Hres. now apply mem_In.
Qed.

Lemma pick_ready_Some emitted waiting remaining : forall q rest,
  pick_ready emitted waiting remaining = Some (q, rest) ->
  ready emitted waiting q = true /\ Permutation remaining (q :: rest).
Proof.
  induction remaining as [|r remaining IH]; simpl; intros q rest H.
  - discriminate.
  - destruct (ready emitted waiting r) eqn:Hr.
    + injection H as <- <-. auto.
    + destruct (pick_ready emitted waiting remaining) as [[q' rest']|];
        [|discriminate].
      injection H as <- <-. destruct (IH q' rest' eq_refl) as [Hq Hperm].
      split; auto. rewrite Hperm. apply perm_swap.
Qed.

Lemma pick_ready_None emitted waiting remaining :
  pick_ready emitted waiting remaining = None ->
  forall q, In q remaining -> ready emitted waiting q = false.
Proof.
  induction remaining as [|r remaining IH]; simpl; intros H q Hq.
  - contradiction.
  - destruct (ready emitted waiting r) eqn:Hr; [discriminate|].
    destruct (pick_ready emitted waiting remaining) as [[q' rest']|];
      [discriminate|].
    destruct Hq as [<-|Hq]; auto.
Qed.

Lemma kahn_round rounds emitted r remaining :
  kahn (S rounds) emitted (r :: remaining) =
  match pick_ready emitted (r :: remaining) (r :: remaining) with
  | Some (q, rest) => kahn rounds (emitted ++ [q]) rest
  | None => inl (CyclicDependency (ids (r :: remaining)))
  end.
Proof. reflexivity. Qed.

(** The invariant of the loop: each placed node has all the carriers of
    its dependency ids before it, none after it, none still waiting. *)
Definition placed_after_carriers (emitted waiting : list Query) : Prop :=
  forall before q after, emitted = before ++ q :: after ->
    forall d, In d (dependancies q) ->
      In d (ids before) /\ ~ In d (ids (q :: after ++ waiting)).

Lemma placed_after_carriers_nil waiting : placed_after_carriers [] waiting.
Proof.
  intros before q after H. now destruct before.
Qed.

Lemma placed_after_carriers_snoc emitted waiting q rest :
  placed_after_carriers emitted waiting ->
  Permutation waiting (q :: rest) ->
  ready emitted waiting q = true ->
  placed_after_carriers (emitted ++ [q]) rest.
Proof.
  intros Hinv Hperm Hready before x after Heq d Hd.
  induction after as [|z after' _] using rev_ind.
  - apply app_inj_tail in Heq. destruct Heq as [<- <-].
    rewrite ready_true in Hready. destruct (Hready d Hd) as [H1 H2].
    split; auto. intros Hin. apply H2. unfold ids in *.
    apply (Permutation_in _ (Permutation_map id (Permutation_sym Hperm))).
    exact Hin.
  - change (before ++ x :: after' ++ [z])
      with (before ++ (x :: after') ++ [z]) in Heq.
    rewrite app_assoc in Heq. apply app_inj_tail in Heq.
    destruct Heq as [Heq <-].
    destruct (Hinv _ _ _ Heq d Hd) as [H1 H2].
    split; auto. intros Hin. apply H2. unfold ids in *.
    assert (Hp : Permutation (x :: (after' ++ [q]) ++ rest)
                             (x :: after' ++ waiting)).
    { apply perm_skip. rewrite <- app_assoc. simpl.
      apply Permutation_app_head. now symmetry. }
    apply (Permutation_in _ (Permutation_map id Hp)). exact Hin.
Qed.

Lemma all_carriers_before_respects order :
  all_carriers_before order -> respects_dependencies order.
Proof.
  intros H before q after Heq d Hd. now destruct (H _ _ _ Heq d Hd).
Qed.

(** A run of the loop that ends well returns all the nodes, each after
    all the carriers of its dependency ids. *)
Lemma kahn_sound rounds : forall emitted remaining order,
  kahn rounds emitted remaining = inr order ->
  placed_after_carriers emitted remaining ->
  Permutation order (emitted ++ remaining) /\ all_carriers_before order.
Proof.
  induction rounds as [|rounds IH]; intros emitted remaining order H Hinv;
    destruct remaining as [|r remaining];
    try (simpl in H; discriminate H);
    try (simpl in H; injection H as <-; rewrite app_nil_r; split; auto;
         intros before q after Heq d Hd;
         destruct (Hinv _ _ _ Heq d Hd) as [H1 H2];
         rewrite app_nil_r in H2; now split).
  rewrite kahn_round in H.
  destruct (pick_ready emitted (r :: remaining) (r :: remaining))
    as [[q rest]|] eqn:Hpick; [|discriminate].
  destruct (pick_ready_Some _ _ _ _ _ Hpick) as [Hq Hp].
  destruct (IH _ _ _ H (placed_after_carriers_snoc _ _ _ _ Hinv Hp Hq))
    as [Hperm Hord].
  split; auto. rewrite Hperm, <- app_assoc. simpl.
  apply Permutation_app_head. now symmetry.
Qed.

(** A run of the loop that fails, having been given rounds enough, got
    stuck: nodes remain and none of them is ready. *)
Lemma kahn_stuck rounds : forall emitted remaining e,
  (List.length remaining <= rounds)%nat ->
  kahn rounds emitted remaining = inl e ->
  exists emitted' remaining' r,
    e = CyclicDependency (ids remaining') /\
    Permutation (emitted' ++ remaining') (emitted ++ remaining) /\
    In r remaining' /\
    (forall q, In q remaining' -> ready emitted' remaining' q = false).
Proof.
  induction rounds as [|rounds IH]; intros emitted remaining e Hlen H;
    destruct remaining as [|r remaining]; simpl in Hlen;
    try (simpl in H; discriminate H); try lia.
  rewrite kahn_round in H.
  destruct (pick_ready emitted (r :: remaining) (r :: remaining))
    as [[q rest]|] eqn:Hpick.
  - destruct (pick_ready_Some _ _ _ _ _ Hpick) as [Hq Hp].
    assert (Hlen' : (List.length rest <= rounds)%nat).
    { apply Permutation_length in Hp. simpl in Hp. lia. }
    destruct (IH _ _ _ Hlen' H) as (em & rem & x & He & Hperm & Hx & Hstuck).
    exists em, rem, x. repeat split; auto.
    rewrite Hperm, <- app_assoc. simpl.
    apply Permutation_app_head. now symmetry.
  - injection H as <-. exists emitted, (r :: remaining), r.
    repeat split; auto; [now left|].
    now apply (pick_ready_None emitted (r :: remaining) (r :: remaining)).
Qed.

(** When no dependency dangles, a stuck loop exhibits a cycle. *)
Lemma stuck_cyclic nodes emitted remaining r :
  Permutation (emitted ++ remaining) nodes ->
  In r remaining ->
  (forall q, In q remaining -> ready emitted remaining q = false) ->
  (forall q d, In q nodes -> In d (dependancies q) -> In d (ids nodes)) ->
  exists i, clos_trans Z (depends_on nodes) i i.
Proof.
  intros Hperm Hr Hstuck Hclosed.
  apply (closed_carrier_cycle Z Z.eq_dec (depends_on nodes)
           (ids remaining)) with (x0 := id r).
  - intros i Hi. unfold ids in Hi. apply in_map_iff in Hi.
    destruct Hi as (q & <- & Hq).
    destruct (ready_false _ _ _ (Hstuck q Hq)) as (d & Hd & Hnot).
    assert (Hqn : In q nodes).
    { apply (Permutation_in _ Hperm). apply in_or_app. now right. }
    exists d. split.
    + destruct Hnot as [Hnot|Hin]; [|exact Hin].
      pose proof (Hclosed q d Hqn Hd) as Hin.
      unfold ids in *.
      apply (Permutation_in _ (Permutation_map id (Permutation_sym Hperm)))
        in Hin.
      rewrite map_app in Hin. apply in_app_or in Hin. tauto.
    + now exists q.
  - unfold ids. now apply in_map.
Qed.

(** A sequence that holds every node after all the carriers of its
    dependency ids rules a cycle out: along a chain of dependencies the
    carriers move towards the front. *)
Lemma chain_moves_to_the_front order :
  all_carriers_before order ->
  forall i j, clos_trans_1n Z (depends_on order) i j ->
  exists before q after,
    order = before ++ q :: after /\ id q = i /\ ~ In j (ids (q :: after)).
Proof.
  intros Hord i j Hij.
  induction Hij as [i j Hstep | i k j Hstep Hrest IH].
  - destruct Hstep as (q & Hq & Hid & Hj).
    destruct (in_split _ _ Hq) as (before & after & Heq).
    exists before, q, after. split; [|split]; auto.
    now destruct (Hord _ _ _ Heq j Hj).
  - destruct Hstep as (q & Hq & Hid & Hk).
    destruct (in_split _ _ Hq) as (before & after & Heq).
    destruct (Hord _ _ _ Heq k Hk) as [_ Hknot].
    destruct IH as (before' & qk & after' & Heq' & Hidk & Hjnot).
    exists before, q, after. split; [|split]; auto.
    rewrite Heq in Heq'. apply app_eq_app in Heq'.
    destruct Heq' as (l & [[H1 H2]|[H1 H2]]).
    + destruct l as [|x l]; simpl in H2.
      * injection H2 as -> ->. exfalso. apply Hknot. simpl. now left.
      * injection H2 as -> ->. intros Hin. apply Hjnot.
        unfold ids in *. simpl. right. rewrite map_app.
        apply in_or_app. now right.
    + exfalso. apply Hknot. rewrite H2. unfold ids. rewrite map_app.
      apply in_or_app. right. simpl. now left.
Qed.

Lemma ordered_acyclic order :
  all_carriers_before order ->
  forall i, ~ clos_trans Z (depends_on order) i i.
Proof.
  intros Hord i Hcycle. apply clos_trans_t1n in Hcycle.
  destruct (chain_moves_to_the_front order Hord i i Hcycle)
    as (before & q & after & _ & Hid & Hnot).
  apply Hnot. simpl. now left.
Qed.

Lemma depends_on_Permutation nodes nodes' :
  Permutation nodes nodes' ->
  forall i j, clos_trans Z (depends_on nodes) i j ->
              clos_trans Z (depends_on nodes') i j.
Proof.
  intros Hperm i j H. induction H as [i j Hstep|i k j _ IH1 _ IH2].
  - destruct Hstep as (q & Hq & Hid & Hj).
    apply t_step. exists q. split; auto. now apply (Permutation_in _ Hperm).
  - now apply t_trans with k.
Qed.

(** ** The topological order *)

Lemma topologicalOrder_sound g order :
  topologicalOrder g = inr order ->
  Permutation order (query_graph g) /\ respects_dependencies order.
Proof.
  intros H.
  destruct (kahn_sound _ _ _ _ H (placed_after_carriers_nil _)) as [Hp Hord].
  split; auto. now apply all_carriers_before_respects.
Qed.

(** The ordering has one way to fail. *)
Lemma topologicalOrder_error g e :
  topologicalOrder g = inl e -> is_CyclicDependency e = true.
Proof.
  intros H. apply kahn_stuck in H; [|apply le_n].
  destruct H as (em & rem & r & -> & _). reflexivity.
Qed.

(** The rounds given suffice: without dangling dependencies and without
    a cycle, the ordering returns. *)
Lemma topologicalOrder_complete g :
  no_dangling g -> acyclic g -> exists order, topologicalOrder g = inr order.
Proof.
  intros Hclosed Hacyclic.
  destruct (topologicalOrder g) as [e|order] eqn:H; [|now exists order].
  exfalso. apply kahn_stuck in H; [|apply le_n].
  destruct H as (em & rem & r & _ & Hperm & Hr & Hstuck).
  destruct (stuck_cyclic (query_graph g) em rem r Hperm Hr Hstuck Hclosed)
    as (i & Hi).
  exact (Hacyclic i Hi).
Qed.

Lemma topologicalOrder_acyclic g order :
  topologicalOrder g = inr order -> acyclic g.
Proof.
  intros H i Hcycle.
  destruct (kahn_sound _ _ _ _ H (placed_after_carriers_nil _)) as [Hperm Hord].
  apply (ordered_acyclic order Hord i).
  apply (depends_on_Permutation (query_graph g)); auto. now symmetry.
Qed.

(** A cycle makes the ordering fail, whatever else the graph has. *)
Lemma topologicalOrder_cyclic g :
  cyclic g -> fails_with is_CyclicDependency (topologicalOrder g).
Proof.
  intros (i & Hcycle).
  destruct (topologicalOrder g) as [e|order] eqn:H; simpl.
  - now apply (topologicalOrder_error g).
  - exact (topologicalOrder_acyclic g order H i Hcycle).
Qed.

(** ** The validator *)

Lemma validate_duplicate g :
  shares_id g -> fails_with is_DuplicateId (validate g).
Proof.
  intros H. apply shares_id_not_unique in H. unfold validate.
  destruct (find_duplicate [] (ids (query_graph g))) as [i|] eqn:Hdup.
  - reflexivity.
  - apply find_duplicate_NoDup in Hdup. contradiction.
Qed.

Lemma validate_dangling g :
  unique_ids g -> dangling g -> fails_with is_DanglingDependency (validate g).
Proof.
  intros Hnd (q & d & Hq & Hd & Hnot). unfold validate.
  apply find_duplicate_NoDup in Hnd. rewrite Hnd.
  destruct (find_dangling (ids (query_graph g)) (query_graph g))
    as [d'|] eqn:Hdang.
  - reflexivity.
  - exfalso. apply Hnot.
    exact (proj1 (find_dangling_None _ _) Hdang q d Hq Hd).
Qed.

Lemma validate_cyclic g :
  unique_ids g -> no_dangling g -> cyclic g ->
  fails_with is_CyclicDependency (validate g).
Proof.
  intros Hnd Hclosed Hcycle. unfold validate.
  pose proof (topologicalOrder_cyclic g Hcycle) as Hfail.
  apply find_duplicate_NoDup in Hnd. rewrite Hnd.
  apply find_dangling_None in Hclosed. rewrite Hclosed.
  destruct (topologicalOrder g); simpl in *; auto.
Qed.

Lemma validate_well_formed g :
  unique_ids g -> no_dangling g -> acyclic g -> validate g = inr tt.
Proof.
  intros Hnd Hclosed Hacyclic. unfold validate.
  destruct (topologicalOrder_complete g Hclosed Hacyclic) as (order & Horder).
  apply find_duplicate_NoDup in Hnd. rewrite Hnd.
  apply find_dangling_None in Hclosed. rewrite Hclosed.
  now rewrite Horder.
Qed.

(** What a successful validation establishes. *)
Lemma validate_ok g :
  validate g = inr tt ->
  unique_ids g /\ no_dangling g /\ acyclic g /\
  exists order, topologicalOrder g = inr order.
Proof.
  unfold validate. intros H.
  destruct (find_duplicate [] (ids (query_graph g))) eqn:Hdup; [discriminate|].
  destruct (find_dangling (ids (query_graph g)) (query_graph g)) eqn:Hdang;
    [discriminate|].
  destruct (topologicalOrder g) as [e|order] eqn:Horder; [discriminate|].
  apply find_duplicate_NoDup in Hdup.
  repeat split; auto.
  - unfold no_dangling. now apply find_dangling_None.
  - exact (topologicalOrder_acyclic g order Horder).
  - now exists order.
Qed.

(** No validator that answers with one error can report a duplicate id
    on every graph that has one and a dangling dependency on every graph
    that has one: some graphs have both. *)
Definition duplicate_and_dangling : QueryPlan :=
  {| query_graph := [node 1 [99]; node 1 []] |}.

Definition duplicate_and_cycle : QueryPlan :=
  {| query_graph := [node 1 [1]; node 1 []] |}.

Definition dangling_and_cycle : QueryPlan :=
  {| query_graph := [node 1 [2]; node 2 [1; 99]] |}.

Lemma duplicate_and_dangling_both :
  shares_id duplicate_and_dangling /\ dangling duplicate_and_dangling.
Proof.
  split.
  - exists 0%nat, 1%nat, (node 1 [99]), (node 1 []). repeat split. lia.
  - exists (node 1 [99]), 99. simpl. split; [|split]; auto.
    intros [H|[H|[]]]; discriminate.
Qed.

Lemma no_validator_reports_every_defect (v : QueryPlan -> GraphError + unit) :
  ~ ((forall g, shares_id g -> fails_with is_DuplicateId (v g)) /\
     (forall g, dangling g -> fails_with is_DanglingDependency (v g))).
Proof.
  intros [Hdup Hdang].
  destruct duplicate_and_dangling_both as [H1 H2].
  specialize (Hdup _ H1). specialize (Hdang _ H2).
  destruct (v duplicate_and_dangling) as [[]|]; simpl in *;
    congruence || contradiction.
Qed.

(** ** The operations read the graph and write nothing *)

Lemma validate_op_run g : validate_op g = (validate g, g).
Proof. reflexivity. Qed.

Lemma topologicalOrder_op_run g : topologicalOrder_op g = (topologicalOrder g, g).
Proof. reflexivity. Qed.

(** * The claims *)

(** ** C1: the outcomes of [validate] *)

Lemma example_plan_unique : unique_ids example_plan.
Proof. apply find_duplicate_NoDup. reflexivity. Qed.

Lemma example_plan_no_dangling : no_dangling example_plan.
Proof. unfold no_dangling. apply find_dangling_None. reflexivity. Qed.

Lemma example_plan_acyclic : acyclic example_plan.
Proof.
  apply (topologicalOrder_acyclic example_plan (query_graph example_plan)).
  reflexivity.
Qed.

Lemma two_cycle_cyclic : cyclic two_cycle.
Proof.
  exists 1. apply t_trans with 2; apply t_step.
  - exists (node 1 [2]). simpl. auto.
  - exists (node 2 [1]). simpl. auto.
Qed.

Lemma duplicate_and_cycle_cyclic : cyclic duplicate_and_cycle.
Proof.
  exists 1. apply t_step. exists (node 1 [1]). simpl. auto.
Qed.

Lemma dangling_and_cycle_cyclic : cyclic dangling_and_cycle.
Proof.
  exists 1. apply t_trans with 2; apply t_step.
  - exists (node 1 [2]). simpl. auto.
  - exists (node 2 [1; 99]). simpl. auto.
Qed.

(** C1, as stated, fails. The claim asks for [DanglingDependency] on
    every graph with a dangling dependency and for [CyclicDependency] on
    every graph with a cycle. A graph that also has a duplicate id is
    reported as [DuplicateId], and a graph with a cycle and a dangling
    dependency is reported as [DanglingDependency]. *)
Lemma validate_reports_first_defect_only :
  (dangling duplicate_and_dangling /\
   validate duplicate_and_dangling = inl (DuplicateId 1)) /\
  (cyclic duplicate_and_cycle /\
   validate duplicate_and_cycle = inl (DuplicateId 1)) /\
  (cyclic dangling_and_cycle /\
   validate dangling_and_cycle = inl (DanglingDependency 99)).
Proof.
  split; [|split]; (split; [|reflexivity]).
  - exact (proj2 duplicate_and_dangling_both).
  - exact duplicate_and_cycle_cyclic.
  - exact dangling_and_cycle_cyclic.
Qed.

(** C1, amended: on a graph with unique ids, no dangling dependency and
    an acyclic dependency relation [validate] succeeds; on a graph in
    which two nodes share an id it fails with [DuplicateId]; on a graph
    with unique ids and a dangling dependency it fails with
    [DanglingDependency]; on a graph with unique ids, no dangling
    dependency and a cycle it fails with [CyclicDependency]. *)
Theorem validate_outcomes (g : QueryPlan) :
  (unique_ids g -> no_dangling g -> acyclic g -> validate g = inr tt) /\
  (shares_id g -> fails_with is_DuplicateId (validate g)) /\
  (unique_ids g -> dangling g ->
   fails_with is_DanglingDependency (validate g)) /\
  (unique_ids g -> no_dangling g -> cyclic g ->
   fails_with is_CyclicDependency (validate g)).
Proof.
  split; [|split; [|split]].
  - apply validate_well_formed.
  - apply validate_duplicate.
  - apply validate_dangling.
  - apply validate_cyclic.
Qed.

Lemma validate_outcomes_witness :
  validate example_plan = inr tt /\
  fails_with is_DuplicateId (validate duplicate_and_dangling) /\
  fails_with is_DanglingDependency (validate dangling_99) /\
  fails_with is_CyclicDependency (validate two_cycle).
Proof.
  split; [|split; [|split]].
  - apply (proj1 (validate_outcomes example_plan)).
    + exact example_plan_unique.
    + exact example_plan_no_dangling.
    + exact example_plan_acyclic.
  - apply (proj1 (proj2 (validate_outcomes duplicate_and_dangling))).
    exact (proj1 duplicate_and_dangling_both).
  - apply (proj1 (proj2 (proj2 (validate_outcomes dangling_99)))).
    + apply find_duplicate_NoDup. reflexivity.
    + exists (node 1 [99]), 99. simpl. split; [|split]; auto.
      intros [H|[]]. discriminate.
  - apply (proj2 (proj2 (proj2 (validate_outcomes two_cycle)))).
    + apply find_duplicate_NoDup. reflexivity.
    + unfold no_dangling. apply find_dangling_None. reflexivity.
    + exact two_cycle_cyclic.
Defined.

(** ** C2: the outcomes of [topologicalOrder] *)

(** [topologicalOrder] called twice on the same graph object. *)
Definition topologicalOrder_twice
  : Op ((GraphError + list Query) * (GraphError + list Query)) :=
  bind topologicalOrder_op (fun r1 =>
  bind topologicalOrder_op (fun r2 => ret (r1, r2))).

(** C2: on a graph that [validate] accepts, [topologicalOrder] returns
    a permutation of the nodes in which every node comes after all of
    its dependencies; calling it twice on the same graph gives the same
    result twice; and on every graph whose dependency relation contains
    a cycle it fails with [CyclicDependency]. *)
Theorem topologicalOrder_outcomes (g : QueryPlan) :
  (validate g = inr tt ->
   exists order, topologicalOrder g = inr order /\
                 Permutation order (query_graph g) /\
                 respects_dependencies order) /\
  (exists r, fst (topologicalOrder_twice g) = (r, r)) /\
  (cyclic g -> fails_with is_CyclicDependency (topologicalOrder g)).
Proof.
  split; [|split].
  - intros Hok. apply validate_ok in Hok.
    destruct Hok as (_ & _ & _ & order & Horder).
    exists order. split; auto. now apply topologicalOrder_sound.
  - exists (topologicalOrder g). reflexivity.
  - apply topologicalOrder_cyclic.
Qed.

Lemma topologicalOrder_outcomes_witness :
  (exists order, topologicalOrder example_plan = inr order /\
                 Permutation order (query_graph example_plan) /\
                 respects_dependencies order) /\
  fails_with is_CyclicDependency (topologicalOrder two_cycle) /\
  fails_with is_CyclicDependency (topologicalOrder duplicate_and_cycle).
Proof.
  split; [|split].
  - apply (proj1 (topologicalOrder_outcomes example_plan)). reflexivity.
  - apply (proj2 (proj2 (topologicalOrder_outcomes two_cycle))).
    exact two_cycle_cyclic.
  - apply (proj2 (proj2 (topologicalOrder_outcomes duplicate_and_cycle))).
    exact duplicate_and_cycle_cyclic.
Defined.

(** ** C7: the operations leave the graph as it was *)








(** *** Writing to a graph object

    [QueryPlan] declares no configuration: a field of the object can be
    assigned, without validation, and the list it holds is an ordinary
    list. *)













(** ** C8: validating twice *)

(** [validate] called twice on the same graph object. *)
Definition validate_twice : Op ((GraphError + unit) * (GraphError + unit)) :=
  bind validate_op (fun r1 =>
  bind validate_op (fun r2 => ret (r1, r2))).

(** C8: running [validate] twice on the same unmodified graph yields the
    same result both times. *)
Theorem validate_twice_same_result (g : QueryPlan) :
  exists r, fst (validate_twice g) = (r, r) /\ r = validate g.
Proof.
  exists (validate g). split; reflexivity.
Qed.

(** ** C3, C6, C9, C10: construction *)

Lemma QueryType_of_value_spec s k :
  QueryType_of_value s = Some k <->
  (s = "SINGLE" /\ k = SINGLE_QUESTION) \/
  (s = "MERGE_MULTIPLE_RESPONSES" /\ k = MERGE_MULTIPLE_RESPONSES).
Proof.
  cbv [QueryType_of_value QueryType_members find QueryType_value].
  destruct (String.eqb "SINGLE" s) eqn:H1;
    [apply String.eqb_eq in H1|apply String.eqb_neq in H1].
  - subst s. split.
    + intros [= <-]. auto.
    + intros [[_ ->]|[H _]]; [reflexivity|discriminate].
  - destruct (String.eqb "MERGE_MULTIPLE_RESPONSES" s) eqn:H2;
      [apply String.eqb_eq in H2|apply String.eqb_neq in H2].
    + subst s. split.
      * intros [= <-]. auto.
      * intros [[H _]|[_ ->]]; [discriminate|reflexivity].
    + split; [discriminate|].
      intros [[-> _]|[-> _]]; congruence.
Qed.

Lemma QueryType_of_value_None s :
  s <> "SINGLE" -> s <> "MERGE_MULTIPLE_RESPONSES" ->
  QueryType_of_value s = None.
Proof.
  intros H1 H2. destruct (QueryType_of_value s) as [k|] eqn:H; auto.
  apply QueryType_of_value_spec in H. tauto.
Qed.

(** The zero id, the empty question. *)
Definition degenerate_query : Query :=
  {| id := 0; question := ""; dependancies := [];
     node_type := SINGLE_QUESTION; original_question := false |}.

(** C3, as stated, fails: [Query(id=0, question="")] is accepted, and
    so is a plan that holds the node twice. The id is not positive, the
    question is empty, the id is not unique in the graph. *)
Lemma Query_accepts_zero_id_and_empty_question :
  Query_init (only_id_and_question 0 "") = inr degenerate_query /\
  QueryPlan_init (Some [degenerate_query; degenerate_query])
    = inr {| query_graph := [degenerate_query; degenerate_query] |} /\
  ~ (0 < id degenerate_query) /\
  question degenerate_query = "" /\
  ~ unique_ids {| query_graph := [degenerate_query; degenerate_query] |}.
Proof.
  split; [reflexivity|]. split; [reflexivity|].
  split; [simpl; lia|]. split; [reflexivity|].
  intros H. apply find_duplicate_NoDup in H. discriminate.
Qed.

(** C3, amended: the id of a constructed [Query] is the integer it was
    given and its question the string it was given, whatever they are;
    every integer and every string is accepted, and a plan accepts every
    list of nodes. Neither the sign nor the uniqueness of ids nor the
    emptiness of the question is constrained by the data model. *)
Theorem Query_keeps_id_and_question_as_given :
  (forall kw q, Query_init kw = inr q ->
     kw_id kw = Some (id q) /\ kw_question kw = Some (question q)) /\
  (forall i s, exists q,
     Query_init (only_id_and_question i s) = inr q /\
     id q = i /\ question q = s) /\
  (forall nodes, exists p,
     QueryPlan_init (Some nodes) = inr p /\ query_graph p = nodes).
Proof.
  split; [|split].
  - intros kw q. unfold Query_init.
    destruct (kw_id kw) as [i|], (kw_question kw) as [s|],
      (validate_node_type (kw_node_type kw)) as [e|k]; simpl;
      try discriminate.
    intros [= <-]. auto.
  - intros i s. eexists. split; [reflexivity|]. auto.
  - intros nodes. eexists. split; [reflexivity|]. auto.
Qed.

(** A negative id, the empty question. *)
Definition negative_query : Query :=
  {| id := -7; question := ""; dependancies := [];
     node_type := SINGLE_QUESTION; original_question := false |}.

Lemma Query_keeps_id_and_question_as_given_witness :
  kw_id (only_id_and_question (-7) "") = Some (id negative_query) /\
  kw_question (only_id_and_question (-7) "") = Some (question negative_query).
Proof.
  apply (proj1 Query_keeps_id_and_question_as_given
           (only_id_and_question (-7) "") negative_query).
  reflexivity.
Defined.

(** C6: a [Query] constructed from an id and a question alone has an
    empty dependency list, the kind [SINGLE_QUESTION] and a false root
    flag. *)
Theorem Query_defaults (i : Z) (s : string) :
  exists q,
    Query_init (only_id_and_question i s) = inr q /\
    dependancies q = [] /\
    node_type q = SINGLE_QUESTION /\
    original_question q = false.
Proof.
  eexists. split; [reflexivity|]. simpl. auto.
Qed.

(** The call [Query(id=i, question=s, dependancies=deps)]. *)
Definition with_dependancies (i : Z) (s : string) (deps : list Z)
  : QueryKwargs :=
  {| kw_id := Some i;
     kw_question := Some s;
     kw_dependancies := Some deps;
     kw_node_type := None;
     kw_original_question := None |}.

(** A node that lists itself, and lists it twice. *)
Definition self_reference : QueryPlan :=
  {| query_graph := [node 1 [1; 1]] |}.

(** C9: constructing a [Query] or a [QueryPlan] checks nothing about
    the graph. Every integer id, every question string and every list
    of dependency ids is accepted and kept as given, and every list of
    nodes makes a plan; plans with a repeated id, with a dependency on
    no node, with a node depending on itself and listing a dependency
    twice, and with a cycle are all values. *)
Theorem construction_checks_no_structure :
  (forall i s deps,
     Query_init (with_dependancies i s deps)
     = inr {| id := i; question := s; dependancies := deps;
              node_type := SINGLE_QUESTION; original_question := false |}) /\
  (forall nodes,
     QueryPlan_init (Some nodes) = inr {| query_graph := nodes |}) /\
  (Query_init (with_dependancies 0 "" []) = inr degenerate_query /\
   Query_init (with_dependancies (-1) "" [-1; -1]) = inr
     {| id := -1; question := ""; dependancies := [-1; -1];
        node_type := SINGLE_QUESTION; original_question := false |}) /\
  (shares_id duplicate_and_dangling /\
   dangling dangling_99 /\
   depends_on (query_graph self_reference) 1 1 /\
   ~ NoDup (dependancies (node 1 [1; 1])) /\
   cyclic two_cycle).
Proof.
  split; [|split; [|split]].
  - reflexivity.
  - reflexivity.
  - split; reflexivity.
  - split; [|split; [|split; [|split]]].
    + exact (proj1 duplicate_and_dangling_both).
    + exists (node 1 [99]), 99. simpl. split; [|split]; auto.
      intros [H|[]]. discriminate.
    + exists (node 1 [1; 1]). simpl. auto.
    + simpl. intros H. inversion H as [|? ? Hnin _]. apply Hnin. now left.
    + exact two_cycle_cyclic.
Qed.

(** The call [Query(id=i, question=s, node_type=t)]. *)
Definition with_node_type (i : Z) (s : string) (t : string) : QueryKwargs :=
  {| kw_id := Some i;
     kw_question := Some s;
     kw_dependancies := None;
     kw_node_type := Some t;
     kw_original_question := None |}.

(** C10: the kind of a node is parsed from exactly two strings,
    ["SINGLE"] and ["MERGE_MULTIPLE_RESPONSES"], each giving the member
    whose value it is; constructing a [Query] with any other string for
    [node_type] fails with a validation error on that field. *)
Theorem node_type_accepts_exactly_two_strings :
  (forall s k,
     QueryType_of_value s = Some k <->
     (s = "SINGLE" /\ k = SINGLE_QUESTION) \/
     (s = "MERGE_MULTIPLE_RESPONSES" /\ k = MERGE_MULTIPLE_RESPONSES)) /\
  (forall s k, QueryType_of_value s = Some k -> QueryType_value k = s) /\
  (forall i q s k, QueryType_of_value s = Some k ->
     exists n, Query_init (with_node_type i q s) = inr n /\ node_type n = k) /\
  (forall kw s, kw_node_type kw = Some s ->
     s <> "SINGLE" -> s <> "MERGE_MULTIPLE_RESPONSES" ->
     exists errors, Query_init kw = inl errors /\
                    In ("node_type", EnumMemberError s) errors).
Proof.
  split; [|split; [|split]].
  - apply QueryType_of_value_spec.
  - intros s k H. apply QueryType_of_value_spec in H.
    destruct H as [[-> ->]|[-> ->]]; reflexivity.
  - intros i q s k H. unfold Query_init, with_node_type. simpl.
    rewrite H. eexists. split; reflexivity.
  - intros kw s Hs H1 H2. unfold Query_init, validate_node_type.
    rewrite Hs, (QueryType_of_value_None s H1 H2).
    exists (errors_of (required "id" (kw_id kw)) ++
            errors_of (required "question" (kw_question kw)) ++
            [("node_type", EnumMemberError s)]).
    split.
    + destruct (required "id" (kw_id kw)), (required "question" (kw_question kw));
        reflexivity.
    + apply in_or_app. right. apply in_or_app. right. now left.
Qed.

Lemma node_type_accepts_exactly_two_strings_witness :
  exists errors,
    Query_init (with_node_type 1 "q" "MERGE") = inl errors /\
    In ("node_type", EnumMemberError "MERGE") errors.
Proof.
  apply (proj2 (proj2 (proj2 node_type_accepts_exactly_two_strings))
           (with_node_type 1 "q" "MERGE") "MERGE").
  - reflexivity.
  - discriminate.
  - discriminate.
Defined.

(** ** C4, C5: the enumeration and the serialised form *)

(** C4, as stated, fails: the enumeration has no member [MERGE]. The
    string names no member and is the value of no member. *)
Lemma QueryType_has_no_member_MERGE :
  QueryType_of_name "MERGE" = None /\
  QueryType_of_value "MERGE" = None /\
  ~ In "MERGE" (map QueryType_name QueryType_members).
Proof.
  split; [reflexivity|]. split; [reflexivity|].
  simpl. intros [H|[H|[]]]; discriminate.
Qed.

(** C4, amended: the enumeration has exactly two members,
    [SINGLE_QUESTION] with value ["SINGLE"] and
    [MERGE_MULTIPLE_RESPONSES] with value ["MERGE_MULTIPLE_RESPONSES"];
    the [node_type] of every node serialises to one of these two
    strings, and to the value of its member. *)
Theorem QueryType_has_exactly_two_members :
  (forall k, k = SINGLE_QUESTION \/ k = MERGE_MULTIPLE_RESPONSES) /\
  SINGLE_QUESTION <> MERGE_MULTIPLE_RESPONSES /\
  (forall k, In k QueryType_members) /\
  map QueryType_name QueryType_members
    = ["SINGLE_QUESTION"; "MERGE_MULTIPLE_RESPONSES"] /\
  map QueryType_value QueryType_members
    = ["SINGLE"; "MERGE_MULTIPLE_RESPONSES"] /\
  (forall q,
     lookup "node_type" (Query_dict q) = Some (VStr (QueryType_value (node_type q))) /\
     (lookup "node_type" (Query_dict q) = Some (VStr "SINGLE") \/
      lookup "node_type" (Query_dict q) = Some (VStr "MERGE_MULTIPLE_RESPONSES"))).
Proof.
  split; [|split; [|split; [|split; [|split]]]].
  - intros []; auto.
  - discriminate.
  - intros []; simpl; auto.
  - reflexivity.
  - reflexivity.
  - intros q. split; [reflexivity|].
    simpl. destruct (node_type q); auto.
Qed.

(** C5, as stated, fails: a serialised node has no key [dependencies];
    the field is spelt [dependancies]. *)
Lemma Query_dict_has_no_key_dependencies :
  lookup "dependencies" (Query_dict (node 1 [])) = None /\
  ~ In "dependencies" (keys (Query_dict (node 1 []))) /\
  lookup "dependancies" (Query_dict (node 1 [])) = Some (VList []).
Proof.
  split; [reflexivity|]. split; [|reflexivity].
  simpl. intros [H|[H|[H|[H|[H|[]]]]]]; discriminate.
Qed.

(** The shape of a serialised node. *)
Definition node_record (r : list (string * value)) : Prop :=
  keys r = ["id"; "question"; "dependancies"; "node_type"; "original_question"] /\
  (exists i, lookup "id" r = Some (VInt i)) /\
  (exists s, lookup "question" r = Some (VStr s)) /\
  (exists deps, lookup "dependancies" r = Some (VList (map VInt deps))) /\
  (exists k, lookup "node_type" r = Some (VStr (QueryType_value k))) /\
  (exists b, lookup "original_question" r = Some (VBool b)).

(** C5, amended: a serialised plan is a mapping with the single key
    [query_graph], bound to a list with one record per node, in order;
    each record has exactly the keys [id], [question], [dependancies] (a
    list of integers), [node_type] and [original_question] (a
    boolean). *)
Theorem QueryPlan_dict_shape (p : QueryPlan) :
  keys (QueryPlan_dict p) = ["query_graph"] /\
  exists records,
    lookup "query_graph" (QueryPlan_dict p) = Some (VList (map VDict records)) /\
    records = map Query_dict (query_graph p) /\
    List.length records = List.length (query_graph p) /\
    Forall node_record records.
Proof.
  split; [reflexivity|].
  exists (map Query_dict (query_graph p)).
  split; [|split; [|split]].
  - simpl. now rewrite map_map.
  - reflexivity.
  - apply length_map.
  - apply Forall_forall. intros r Hr. apply in_map_iff in Hr.
    destruct Hr as (q & <- & _). unfold node_record.
    split; [reflexivity|].
    split; [now exists (id q)|].
    split; [now exists (question q)|].
    split; [now exists (dependancies q)|].
    split; [now exists (node_type q)|].
    now exists (original_question q).
Qed.

(** * More of the module *)

(** ** The enumeration, both ways *)

(** Looking a member up by its value, or by its name, gives the member
    back; two members with the same value are the same member. *)
Theorem QueryType_lookup_round_trip :
  (forall k, QueryType_of_value (QueryType_value k) = Some k) /\
  (forall k, QueryType_of_name (QueryType_name k) = Some k) /\
  (forall k1 k2, QueryType_value k1 = QueryType_value k2 -> k1 = k2) /\
  (forall s k, QueryType_of_name s = Some k -> QueryType_name k = s).
Proof.
  split; [|split; [|split]].
  - intros []; reflexivity.
  - intros []; reflexivity.
  - intros [] []; simpl; intros H; try reflexivity; discriminate H.
  - intros s k. cbv [QueryType_of_name QueryType_members find QueryType_name].
    destruct (String.eqb "SINGLE_QUESTION" s) eqn:H1.
    + apply String.eqb_eq in H1. now intros [= <-].
    + destruct (String.eqb "MERGE_MULTIPLE_RESPONSES" s) eqn:H2.
      * apply String.eqb_eq in H2. now intros [= <-].
      * discriminate.
Qed.

(** ** When [Query] accepts its arguments *)

(** The keyword arguments that spell out every field of a node. *)
Definition Query_kwargs (q : Query) : QueryKwargs :=
  {| kw_id := Some (id q);
     kw_question := Some (question q);
     kw_dependancies := Some (dependancies q);
     kw_node_type := Some (QueryType_value (node_type q));
     kw_original_question := Some (original_question q) |}.

(** For arguments given at the types the fields declare: [Query]
    accepts them exactly when an id and a question are given and the
    kind, if given, is the value of a member; the node built holds each
    argument given and, for each argument left out, the default of its
    field. *)
Theorem Query_init_accepts_iff (kw : QueryKwargs) (q : Query) :
  Query_init kw = inr q <->
  kw_id kw = Some (id q) /\
  kw_question kw = Some (question q) /\
  (kw_dependancies kw = None /\ dependancies q = [] \/
   kw_dependancies kw = Some (dependancies q)) /\
  (kw_node_type kw = None /\ node_type q = SINGLE_QUESTION \/
   kw_node_type kw = Some (QueryType_value (node_type q))) /\
  (kw_original_question kw = None /\ original_question q = false \/
   kw_original_question kw = Some (original_question q)).
Proof.
  unfold Query_init, validate_node_type. split.
  - destruct (kw_id kw) as [i|], (kw_question kw) as [s|],
      (kw_dependancies kw) as [deps|], (kw_original_question kw) as [root|],
      (kw_node_type kw) as [t|]; simpl; try discriminate;
      try (destruct (QueryType_of_value t) as [k|] eqn:Ht; simpl;
           [|discriminate]);
      intros [= <-]; simpl;
      (split; [reflexivity|]); (split; [reflexivity|]);
      (split; [auto|]); (split; [|auto]);
      try (now left);
      right; apply QueryType_of_value_spec in Ht;
      destruct Ht as [[-> ->]|[-> ->]]; reflexivity.
  - intros (Hid & Hq & Hdeps & Hkind & Hroot).
    rewrite Hid, Hq. simpl.
    destruct q as [i s deps k root]. simpl in *.
    destruct Hdeps as [[-> ->]| ->], Hroot as [[-> ->]| ->],
      Hkind as [[-> ->]| ->]; simpl; try reflexivity;
      destruct k; reflexivity.
Qed.

Lemma Query_init_accepts_iff_witness :
  kw_id (with_node_type 4 "q" "MERGE_MULTIPLE_RESPONSES")
    = Some (id {| id := 4; question := "q"; dependancies := [];
                  node_type := MERGE_MULTIPLE_RESPONSES;
                  original_question := false |}).
Proof.
  apply (proj1 (Query_init_accepts_iff
                  (with_node_type 4 "q" "MERGE_MULTIPLE_RESPONSES")
                  {| id := 4; question := "q"; dependancies := [];
                     node_type := MERGE_MULTIPLE_RESPONSES;
                     original_question := false |})).
  reflexivity.
Defined.

(** For arguments given at the types the fields declare: when [Query]
    rejects them, the error names every offending field, once each: a
    missing id, a missing question, a kind that is the value of no
    member. A dependency list of integers and a boolean root flag, given
    or left out, add no error. *)
Theorem Query_init_reports_every_offending_field
  (kw : QueryKwargs) (errors : ValidationError) :
  Query_init kw = inl errors ->
  errors <> [] /\
  NoDup (map fst errors) /\
  (In ("id", MissingError) errors <-> kw_id kw = None) /\
  (In ("question", MissingError) errors <-> kw_question kw = None) /\
  (forall s, In ("node_type", EnumMemberError s) errors <->
             kw_node_type kw = Some s /\ QueryType_of_value s = None) /\
  (forall field kind, In (field, kind) errors ->
     field = "id" \/ field = "question" \/ field = "node_type").
Proof.
  unfold Query_init, validate_node_type.
  destruct (kw_id kw) as [i|], (kw_question kw) as [q|],
    (kw_node_type kw) as [t|]; simpl;
    try destruct (QueryType_of_value t) as [k|] eqn:Ht; simpl;
    try discriminate; intros [= <-];
    (split; [discriminate|]);
    (split; [repeat constructor; simpl; intuition discriminate|]);
    (split; [simpl; intuition discriminate|]);
    (split; [simpl; intuition discriminate|]);
    (split;
      [intros s; simpl; split;
        [intros H; repeat destruct H as [H|H]; try discriminate H;
         try contradiction; injection H as <-; auto
        |intros [H1 H2]; try discriminate H1; injection H1 as <-;
         try congruence; auto 6]
      |intros field kind H; simpl in H;
       repeat destruct H as [H|H]; try contradiction;
       injection H as <- <-; auto]).
Qed.

Lemma Query_init_reports_every_offending_field_witness :
  In ("id", MissingError)
     [("id", MissingError); ("node_type", EnumMemberError "MERGE")]
  <-> kw_id {| kw_id := None; kw_question := Some "q";
               kw_dependancies := None; kw_node_type := Some "MERGE";
               kw_original_question := None |} = None.
Proof.
  apply (Query_init_reports_every_offending_field
           {| kw_id := None; kw_question := Some "q";
              kw_dependancies := None; kw_node_type := Some "MERGE";
              kw_original_question := None |}
           [("id", MissingError); ("node_type", EnumMemberError "MERGE")]).
  reflexivity.
Defined.

(** Building a node again from the fields of a node gives the node. *)
Theorem Query_rebuilt_from_its_fields (q : Query) :
  Query_init (Query_kwargs q) = inr q.
Proof.
  destruct q as [i s deps k root]. destruct k; reflexivity.
Qed.

(** ** Serialisation loses nothing *)

Lemma map_injective {A B : Type} (f : A -> B) :
  (forall x y, f x = f y -> x = y) ->
  forall l1 l2, map f l1 = map f l2 -> l1 = l2.
Proof.
  intros Hf. induction l1 as [|x l1 IH]; intros [|y l2] H;
    try discriminate H; auto.
  cbn [map] in H. injection H as Hxy H. f_equal; auto.
Qed.

Lemma map_VInt_injective l1 l2 :
  map VInt l1 = map VInt l2 -> l1 = l2.
Proof.
  apply map_injective. intros x y H. now injection H.
Qed.

Lemma Query_dict_injective q1 q2 :
  Query_dict q1 = Query_dict q2 -> q1 = q2.
Proof.
  destruct q1 as [i1 s1 d1 k1 r1], q2 as [i2 s2 d2 k2 r2].
  unfold Query_dict. simpl. intros H.
  injection H as -> -> Hd Hk ->.
  apply map_VInt_injective in Hd. subst d2.
  destruct k1, k2; simpl in Hk; try discriminate Hk; reflexivity.
Qed.

(** Two nodes with the same serialised form are the same node, and two
    plans with the same serialised form are the same plan. *)
Theorem serialisation_is_injective :
  (forall q1 q2, Query_dict q1 = Query_dict q2 -> q1 = q2) /\
  (forall p1 p2, QueryPlan_dict p1 = QueryPlan_dict p2 -> p1 = p2).
Proof.
  split.
  - exact Query_dict_injective.
  - intros [l1] [l2]. unfold QueryPlan_dict. simpl. intros H.
    injection H as H. f_equal. revert H. apply map_injective.
    intros q1 q2 H. apply Query_dict_injective. congruence.
Qed.

Lemma serialisation_is_injective_witness :
  node 3 [1] = node 3 [1].
Proof.
  apply (proj1 serialisation_is_injective (node 3 [1]) (node 3 [1])).
  reflexivity.
Defined.

(** ** [QueryAnswer] *)

Record QueryAnswerKwargs : Type := mkQueryAnswerKwargs {
  kw_qa_question : option string;
  kw_answer : option string
}.

(** The call [QueryAnswer] on keyword arguments: both fields are
    annotated without a default, hence required. As for [Query], the
    arguments are taken at their declared type, here strings. *)
Definition QueryAnswer_init (kw : QueryAnswerKwargs)
  : ValidationError + QueryAnswer :=
  let r_question := required "question" (kw_qa_question kw) in
  let r_answer := required "answer" (kw_answer kw) in
  match r_question, r_answer with
  | inr q, inr a => inr {| qa_question := q; answer := a |}
  | _, _ => inl (errors_of r_question ++ errors_of r_answer)
  end.

(** For arguments given as strings: a [QueryAnswer] is built exactly
    when both its question and its answer are given, and holds them as
    given; otherwise the error names every missing field, and nothing
    else. *)
Theorem QueryAnswer_init_needs_both_fields (kw : QueryAnswerKwargs) :
  (forall a, QueryAnswer_init kw = inr a <->
     kw_qa_question kw = Some (qa_question a) /\
     kw_answer kw = Some (answer a)) /\
  (forall errors, QueryAnswer_init kw = inl errors ->
     errors <> [] /\
     (In ("question", MissingError) errors <-> kw_qa_question kw = None) /\
     (In ("answer", MissingError) errors <-> kw_answer kw = None) /\
     (forall field kind, In (field, kind) errors ->
        kind = MissingError /\ (field = "question" \/ field = "answer"))).
Proof.
  unfold QueryAnswer_init.
  destruct (kw_qa_question kw) as [q|], (kw_answer kw) as [a|]; simpl; split;
    try (intros errors H; discriminate H);
    try (intros errors [= <-];
         split; [discriminate|];
         split; [simpl; intuition discriminate|];
         split; [simpl; intuition discriminate|];
         intros field kind H; simpl in H;
         repeat destruct H as [H|H]; try contradiction;
         injection H as <- <-; auto);
    intros [q' a']; simpl; split; try discriminate;
    try (intros [H1 H2]; congruence).
  intros [= <- <-]. auto.
Qed.

Lemma QueryAnswer_init_needs_both_fields_witness :
  [("answer", MissingError)] <> [] /\
  (In ("question", MissingError) [("answer", MissingError)] <->
   kw_qa_question {| kw_qa_question := Some "q"; kw_answer := None |} = None) /\
  (In ("answer", MissingError) [("answer", MissingError)] <->
   kw_answer {| kw_qa_question := Some "q"; kw_answer := None |} = None) /\
  (forall field kind, In (field, kind) [("answer", MissingError)] ->
     kind = MissingError /\ (field = "question" \/ field = "answer")).
Proof.
  apply (proj2 (QueryAnswer_init_needs_both_fields
                  {| kw_qa_question := Some "q"; kw_answer := None |})
           [("answer", MissingError)]).
  reflexivity.
Defined.

(** ** [query_planner]

    The planner talks to a hosted model twice and hands the second
    answer to [QueryPlan.from_response]. The hosted model and the parser
    are outside the module: the planner is embedded as the script of its
    calls, and a run of the script is taken against any behaviour of the
    two. *)

Section Planner.

(** [QueryPlan.openai_schema], inherited from [OpenAISchema], and its
    entry under ["name"]. *)
Variable Schema : Type.
Variable openai_schema : Schema.
Variable schema_name : Schema -> string.

(** What the hosted model or the parser may raise. *)
Variable Exn : Type.

Record Message : Type := mkMessage {
  role : string;
  content : string
}.

(** The keyword arguments of [openai.ChatCompletion.create]; the last
    two are absent from the first call. *)
Record Request : Type := mkRequest {
  model : string;
  temperature : Z;
  messages : list Message;
  max_tokens : Z;
  functions : option (list Schema);
  function_call : option string
}.

Record Choice : Type := mkChoice {
  message : Message
}.

Record Completion : Type := mkCompletion {
  choices : list Choice
}.

Inductive Failure : Type :=
| IndexError
| Raised (e : Exn).

(** A script: return, raise, or make a call and go on with its answer. *)
Inductive Script (A : Type) : Type :=
| Return (a : A)
| Throw (e : Failure)
| Create (r : Request) (k : Completion -> Script A)
| FromResponse (c : Completion) (k : QueryPlan -> Script A).

Arguments Return {A} a.
Arguments Throw {A} e.
Arguments Create {A} r k.
Arguments FromResponse {A} c k.

Definition PLANNING_MODEL : string := "gpt-4".
Definition ANSWERING_MODEL : string := "gpt-3.5-turbo-0613".

Definition newline : string := String (Ascii.ascii_of_nat 10) EmptyString.

(** The three messages the conversation opens with. *)
Definition opening_messages (question : string) : list Message :=
  [ {| role := "system";
       content := "You are a world class query planning algorithm capable of breaking apart questions into its depenencies queries such that the answers can be used to inform the parent question. Do not answer the questions, simply provide correct compute graph with good specific questions to ask and relevant dependencies. Before you call the function, think step by step to get a better understanding the problem." |};
    {| role := "user";
       content := String.append "Consider: "
                    (String.append question
                       (String.append newline " Before you call the function, think step by step to get a correct query plan.")) |};
    {| role := "assistant";
       content := "Lets think step by step to find the correct query plan that does not make any assuptions of what is known." |} ].

Definition closing_message : Message :=
  {| role := "user";
     content := "Using that information produce the complete and correct query plan." |}.

(** The first call. *)
Definition planning_request (question : string) : Request :=
  {| model := PLANNING_MODEL;
     temperature := 0;
     messages := opening_messages question;
     max_tokens := 1000;
     functions := None;
     function_call := None |}.

(** The second call, [reply] being the message appended after the
    first. *)
Definition answering_request (question : string) (reply : Message) : Request :=
  {| model := ANSWERING_MODEL;
     temperature := 0;
     messages := (opening_messages question ++ [reply]) ++ [closing_message];
     max_tokens := 1000;
     functions := Some [openai_schema];
     function_call := Some (schema_name openai_schema) |}.

(** [query_planner(question)]. [completion.choices[0]] raises
    [IndexError] on an empty list. *)
Definition query_planner (question : string) : Script QueryPlan :=
  Create (planning_request question) (fun completion =>
    match choices completion with
    | [] => Throw IndexError
    | first :: _ =>
        Create (answering_request question (message first)) (fun completion' =>
          FromResponse completion' (fun root => Return root))
    end).

(** *** Running a script *)

(** The calls made, in order. *)
Inductive Call : Type :=
| Created (r : Request)
| Parsed (c : Completion).

(** The hosted model answers a request, or raises; its answer may depend
    on the calls made before. *)
Variable hosted_model : list Call -> Request -> Exn + Completion.

(** [QueryPlan.from_response], inherited from [OpenAISchema]: a plan, or
    an exception. *)
Variable from_response : Completion -> Exn + QueryPlan.

(** An exception is not caught: it ends the run. *)
Fixpoint run {A : Type} (log : list Call) (s : Script A)
  : list Call * (Failure + A) :=
  match s with
  | Return a => (log, inr a)
  | Throw e => (log, inl e)
  | Create r k =>
      match hosted_model log r with
      | inl e => (log ++ [Created r], inl (Raised e))
      | inr c => run (log ++ [Created r]) (k c)
      end
  | FromResponse c k =>
      match from_response c with
      | inl e => (log ++ [Parsed c], inl (Raised e))
      | inr p => run (log ++ [Parsed c]) (k p)
      end
  end.

Definition calls_of (question : string) : list Call :=
  fst (run [] (query_planner question)).

Definition result_of (question : string) : Failure + QueryPlan :=
  snd (run [] (query_planner question)).

(** *** What a run does *)

Ltac run_planner :=
  unfold result_of, calls_of, query_planner; cbn [run fst snd app].

(** The planner returns a plan exactly when the hosted model answers
    both calls, its first answer has a choice, and the parser accepts
    its second answer; the plan returned is the parser's, as it is. *)
Theorem query_planner_returns_iff (question : string) (p : QueryPlan) :
  result_of question = inr p <->
  exists c1 first rest c2,
    hosted_model [] (planning_request question) = inr c1 /\
    choices c1 = first :: rest /\
    hosted_model [Created (planning_request question)]
      (answering_request question (message first)) = inr c2 /\
    from_response c2 = inr p.
Proof.
  run_planner. split.
  - destruct (hosted_model [] (planning_request question)) as [e|c1] eqn:H1;
      [discriminate|].
    destruct (choices c1) as [|first rest] eqn:Hc; [discriminate|].
    cbn [run fst snd app].
    destruct (hosted_model _ (answering_request question (message first)))
      as [e|c2] eqn:H2; [discriminate|].
    cbn [run fst snd app].
    destruct (from_response c2) as [e|p'] eqn:H3; [discriminate|].
    cbn [run fst snd app]. intros [= <-].
    exists c1, first, rest, c2. auto.
  - intros (c1 & first & rest & c2 & H1 & Hc & H2 & H3).
    rewrite H1, Hc. cbn [run fst snd app]. rewrite H2.
    cbn [run fst snd app]. rewrite H3. reflexivity.
Qed.

(** When the planner returns, it has made three calls: the planning
    request, the answering request, the parse of the second answer. The
    second request carries the conversation of the first, then the
    model's first choice, then the closing message; only the second
    request offers the plan's schema and asks for it by name. *)
Theorem query_planner_conversation (question : string) (p : QueryPlan) :
  result_of question = inr p ->
  exists r1 r2 c1 c2 reply others,
    calls_of question = [Created r1; Created r2; Parsed c2] /\
    hosted_model [] r1 = inr c1 /\
    choices c1 = {| message := reply |} :: others /\
    hosted_model [Created r1] r2 = inr c2 /\
    from_response c2 = inr p /\
    map role (messages r1) = ["system"; "user"; "assistant"] /\
    messages r2 = messages r1 ++ [reply; closing_message] /\
    model r1 = "gpt-4" /\ model r2 = "gpt-3.5-turbo-0613" /\
    functions r1 = None /\ function_call r1 = None /\
    functions r2 = Some [openai_schema] /\
    function_call r2 = Some (schema_name openai_schema).
Proof.
  run_planner.
  destruct (hosted_model [] (planning_request question)) as [e|c1] eqn:H1;
    [discriminate|].
  destruct (choices c1) as [|[reply] rest] eqn:Hc; [discriminate|].
  cbn [run fst snd app message].
  destruct (hosted_model _ (answering_request question reply))
    as [e|c2] eqn:H2; [discriminate|].
  cbn [run fst snd app].
  destruct (from_response c2) as [e|p'] eqn:H3; [discriminate|].
  cbn [run fst snd app]. intros [= <-].
  exists (planning_request question), (answering_request question reply),
    c1, c2, reply, rest.
  repeat (split; [first [assumption|reflexivity]|]).
  reflexivity.
Qed.

(** Whatever the hosted model and the parser do, the planner starts with
    the planning request, makes three calls at most and none of them
    twice, and each request it sends has temperature 0, at most 1000
    tokens to answer with, and the three opening messages in front. *)
Theorem query_planner_calls (question : string) :
  (exists rest,
     calls_of question = Created (planning_request question) :: rest) /\
  (List.length (calls_of question) <= 3)%nat /\
  NoDup (calls_of question) /\
  (forall r, In (Created r) (calls_of question) ->
     temperature r = 0 /\ max_tokens r = 1000 /\
     firstn 3 (messages r) = opening_messages question).
Proof.
  run_planner.
  destruct (hosted_model [] (planning_request question)) as [e|c1];
    [|destruct (choices c1) as [|first rest]; cbn [run fst snd app];
      [|destruct (hosted_model _ (answering_request question (message first)))
          as [e|c2]; cbn [run fst snd app];
        [|destruct (from_response c2) as [e|p]; cbn [run fst snd app]]]];
    (split; [eexists; reflexivity|]);
    (split; [simpl; lia|]);
    (split;
      [repeat constructor; simpl; intuition discriminate
      |intros r H; simpl in H;
       repeat destruct H as [H|H]; try contradiction; try discriminate H;
       injection H as <-; repeat split]).
Qed.

(** When the planner fails, it fails at the first thing that goes wrong
    and makes no further call: an exception of the hosted model or of
    the parser is passed on as it is, a first answer without choices is
    an [IndexError], and nothing is tried again. *)
Theorem query_planner_fails_at_first_failure (question : string) (e : Failure) :
  result_of question = inl e ->
  (exists x,
     hosted_model [] (planning_request question) = inl x /\
     e = Raised x /\
     calls_of question = [Created (planning_request question)]) \/
  (exists c1,
     hosted_model [] (planning_request question) = inr c1 /\
     choices c1 = [] /\
     e = IndexError /\
     calls_of question = [Created (planning_request question)]) \/
  (exists c1 first rest x,
     hosted_model [] (planning_request question) = inr c1 /\
     choices c1 = first :: rest /\
     hosted_model [Created (planning_request question)]
       (answering_request question (message first)) = inl x /\
     e = Raised x /\
     calls_of question =
       [Created (planning_request question);
        Created (answering_request question (message first))]) \/
  (exists c1 first rest c2 x,
     hosted_model [] (planning_request question) = inr c1 /\
     choices c1 = first :: rest /\
     hosted_model [Created (planning_request question)]
       (answering_request question (message first)) = inr c2 /\
     from_response c2 = inl x /\
     e = Raised x /\
     calls_of question =
       [Created (planning_request question);
        Created (answering_request question (message first));
        Parsed c2]).
Proof.
  run_planner.
  destruct (hosted_model [] (planning_request question)) as [x|c1] eqn:H1.
  - intros [= <-]. left. now exists x.
  - destruct (choices c1) as [|first rest] eqn:Hc; cbn [run fst snd app].
    + intros [= <-]. right. left. now exists c1.
    + destruct (hosted_model _ (answering_request question (message first)))
        as [x|c2] eqn:H2; cbn [run fst snd app].
      * intros [= <-]. right. right. left. now exists c1, first, rest, x.
      * destruct (from_response c2) as [x|p] eqn:H3; cbn [run fst snd app].
        -- intros [= <-]. right. right. right.
           now exists c1, first, rest, c2, x.
        -- discriminate.
Qed.

(** *** The question in the request *)

Lemma length_append (a b : string) :
  String.length (String.append a b) = (String.length a + String.length b)%nat.
Proof.
  induction a as [|c a IH]; simpl; auto.
Qed.

Lemma append_cancel_l (p a b : string) :
  String.append p a = String.append p b -> a = b.
Proof.
  induction p as [|c p IH]; simpl; intros H; auto.
  injection H as H. auto.
Qed.

Lemma append_cancel_r (a : string) : forall b s,
  String.append a s = String.append b s -> a = b.
Proof.
  induction a as [|c a IH]; intros [|d b] s H; simpl in H.
  - reflexivity.
  - apply (f_equal String.length) in H. simpl in H.
    rewrite length_append in H. lia.
  - apply (f_equal String.length) in H. simpl in H.
    rewrite length_append in H. lia.
  - injection H as -> H. f_equal. exact (IH _ _ H).
Qed.

(** The question is sent as it is, between a fixed opening and a fixed
    ending: two questions that give the same planning request are the
    same question, and so for the answering request. *)
Theorem query_planner_request_determines_question (q1 q2 : string) :
  (planning_request q1 = planning_request q2 -> q1 = q2) /\
  (forall reply1 reply2,
     answering_request q1 reply1 = answering_request q2 reply2 ->
     q1 = q2 /\ reply1 = reply2).
Proof.
  assert (Hopen : opening_messages q1 = opening_messages q2 -> q1 = q2).
  { intros H.
    apply (f_equal (fun l => content (nth 1 l closing_message))) in H.
    cbn [opening_messages nth content] in H.
    apply append_cancel_l in H.
    exact (append_cancel_r _ _ _ H). }
  split.
  - intros H. apply Hopen.
    exact (f_equal messages H).
  - intros reply1 reply2 H.
    apply (f_equal messages) in H. cbn [messages answering_request] in H.
    apply app_inj_tail in H. destruct H as [H _].
    apply app_inj_tail in H. destruct H as [H Hreply].
    split; auto.
Qed.

End Planner.

(** *** Two worlds to run the planner in *)

Definition one_choice : Completion :=
  {| choices := [ {| message := {| role := "assistant"; content := "a plan" |} |} ] |}.

(** A hosted model that always answers with one choice, and one that
    always raises. *)
Definition answering_world (log : list (Call string)) (r : Request string)
  : string + Completion := inr one_choice.

Definition failing_world (log : list (Call string)) (r : Request string)
  : string + Completion := inl "timeout".

Definition accepting_parser (c : Completion) : string + QueryPlan :=
  inr example_plan.

Definition name_of_schema (s : string) : string := s.

Lemma QueryType_lookup_round_trip_witness :
  SINGLE_QUESTION = SINGLE_QUESTION.
Proof.
  apply (proj1 (proj2 (proj2 QueryType_lookup_round_trip))
           SINGLE_QUESTION SINGLE_QUESTION).
  reflexivity.
Defined.

Lemma query_planner_returns_iff_witness :
  exists c2,
    answering_world
      [Created string (planning_request string "q")]
      (answering_request string "QueryPlan" name_of_schema "q"
         {| role := "assistant"; content := "a plan" |}) = inr c2 /\
    accepting_parser c2 = inr example_plan.
Proof.
  destruct (proj1 (query_planner_returns_iff string "QueryPlan" name_of_schema
                     string answering_world accepting_parser "q" example_plan)
              eq_refl)
    as (c1 & first & rest & c2 & H1 & Hc & H2 & H3).
  exists c2. split; [exact H2|exact H3].
Defined.

Lemma query_planner_conversation_witness :
  exists r1 r2 c2 reply,
    calls_of string "QueryPlan" name_of_schema string
      answering_world accepting_parser "q"
    = [Created string r1; Created string r2; Parsed string c2] /\
    messages string r2 = messages string r1 ++ [reply; closing_message].
Proof.
  destruct (query_planner_conversation string "QueryPlan" name_of_schema
              string answering_world accepting_parser "q" example_plan eq_refl)
    as (r1 & r2 & c1 & c2 & reply & others & Hcalls & _ & _ & _ & _ & _ & Hm & _).
  exists r1, r2, c2, reply. split; assumption.
Defined.

Lemma query_planner_calls_witness :
  temperature string (planning_request string "q") = 0 /\
  max_tokens string (planning_request string "q") = 1000 /\
  firstn 3 (messages string (planning_request string "q"))
    = opening_messages "q".
Proof.
  apply (proj2 (proj2 (proj2
           (query_planner_calls string "QueryPlan" name_of_schema
              string failing_world accepting_parser "q")))).
  left. reflexivity.
Defined.

Lemma query_planner_fails_at_first_failure_witness :
  calls_of string "QueryPlan" name_of_schema string
    failing_world accepting_parser "q"
  = [Created string (planning_request string "q")].
Proof.
  destruct (query_planner_fails_at_first_failure string "QueryPlan"
              name_of_schema string failing_world accepting_parser "q"
              (Raised string "timeout") eq_refl)
    as [(x & _ & _ & H)|[(c1 & H1 & _)|[(c1 & f & r & x & H1 & _)
       |(c1 & f & r & c2 & x & H1 & _)]]];
    [exact H|discriminate H1..].
Defined.

Lemma query_planner_request_determines_question_witness :
  "who" = "who".
Proof.
  apply (proj1 (query_planner_request_determines_question
                  string "QueryPlan" name_of_schema "who" "who")).
  reflexivity.
Defined.
